(** * genericmap: a bidirectional map with a reverse index

    Shallow embedding of [genericmap.Map] (Go) and the proofs of its
    index-consistency properties.

    Modelling choices.
    - A Go [map[K]V] is a finite map [gmap K V]; the key set
      [map[K]struct{}] of a reverse bucket is a finite set [gset K].
      [K] and [V] are [comparable] in Go: here they carry a decidable
      (and reflexive) equality and are countable.
    - [sync.RWMutex] serialises the operations; each method is modelled by
      the state transformer that it runs inside its critical section.
    - A bucket is a reference: [delete(keyMap, key)] and
      [m.reverseMap[value][key] = struct{}{}] are seen through the outer
      map, so the model writes the changed bucket back under its value.
    - [range] over a Go map visits the entries in an unspecified order.
      The model visits them in the order of [map_to_list] / [elements],
      and every result about a returned slice is stated up to order. *)

From Stdlib Require Import ZArith.
From stdpp Require Import gmap strings list fin_maps fin_sets.

(** ** Zero values, slices and [make] *)

(** The zero value of a Go type: what a failed map lookup returns and what
    [make([]A, n)] fills a slice with. *)
Class Zero (A : Type) : Type := zero : A.

#[global] Instance Z_zero : Zero Z := 0%Z.
#[global] Instance string_zero : Zero string := EmptyString.

(** [s[i] = x]: Go panics when [i] is out of range; [None] is the panic. *)
Definition slice_store {A} (i : nat) (x : A) (s : list A) : option (list A) :=
  if decide (i < length s)%nat then Some (<[i:=x]> s) else None.

(** [make([]A, n)]: [n] zero values. *)
Definition make_slice {A} (zero : A) (n : nat) : list A := replicate n zero.

(** [make(map[A]B)] and [make(map[A]B, hint)]: a map without entries.
    The model keeps the entries of a map and nothing else; how the runtime
    sizes the table from [hint], and what it does with a hint it cannot
    honour, is outside it. *)
Definition make_map {A B} `{Countable A} (hint : Z) : gmap A B := ∅.

Section genericmap.
Context {K V : Type} `{Countable K} `{Countable V}.
Context `{Zero K} `{Zero V}.

(** [type Map[K comparable, V comparable] struct] *)
Record Map : Type := mkMap {
  data : gmap K V;
  reverseMap : gmap V (gset K);
}.

(** [if m.reverseMap[v] == nil { m.reverseMap[v] = make(map[K]struct{}) }] *)
Definition ensureBucket (value : V) (r : gmap V (gset K)) : gmap V (gset K) :=
  match r !! value with
  | Some _ => r
  | None => <[value := ∅]> r
  end.

(** [m.reverseMap[value][key] = struct{}{}].  A write into a missing
    (nil) bucket would panic; it always follows [ensureBucket], see
    [ensureBucket_is_Some]. *)
Definition addToBucket (key : K) (value : V) (r : gmap V (gset K))
  : gmap V (gset K) :=
  match r !! value with
  | Some keyMap => <[value := {[key]} ∪ keyMap]> r
  | None => r
  end.

(** The body of the loops of [New]. *)
Definition populate (m : Map) (kv : K * V) : Map :=
  {| data := <[kv.1 := kv.2]> (data m);
     reverseMap := addToBucket kv.1 kv.2 (ensureBucket kv.2 (reverseMap m)) |}.

Definition New (initialData : list (gmap K V)) : Map :=
  foldl (λ m dataMap, foldl populate m (map_to_list dataMap))
        {| data := make_map 0%Z; reverseMap := make_map 0%Z |}
        initialData.

Definition NewWithCapacity (capacity : Z) : Map :=
  {| data := make_map capacity; reverseMap := make_map capacity |}.

Definition removeFromReverseMap (key : K) (value : V) (r : gmap V (gset K))
  : gmap V (gset K) :=
  match r !! value with
  | Some keyMap =>
      let keyMap' := keyMap ∖ {[key]} in
      if decide (size keyMap' = 0%nat) then delete value r
      else <[value := keyMap']> r
  | None => r
  end.

(** [func (m *Map[K, V]) Set(key K, value V)]; the name [Set] is taken
    in Rocq.  [found] is the pair [oldValue, exists := m.data[key]]. *)
Definition Set_ (key : K) (value : V) (m : Map) : Map :=
  let found := data m !! key in
  if decide (found = Some value) then m
  else
    let r := match found with
             | Some oldValue => removeFromReverseMap key oldValue (reverseMap m)
             | None => reverseMap m
             end in
    {| data := <[key := value]> (data m);
       reverseMap := addToBucket key value (ensureBucket value r) |}.

Definition Get (key : K) (m : Map) : V * bool :=
  match data m !! key with
  | Some val => (val, true)
  | None => (zero, false)
  end.

Definition GetKeys (value : V) (m : Map) : list K :=
  match reverseMap m !! value with
  | Some keyMap => foldl (λ result key, result ++ [key]) [] (elements keyMap)
  | None => []
  end.

(** The loop shared by [List] and [Values]: [out[i] = f k v; i++] over the
    entries of [m.data]. *)
Definition fill_step {A} (f : K * V → A) (st : option (list A * nat))
    (kv : K * V) : option (list A * nat) :=
  match st with
  | Some (out, i) =>
      match slice_store i (f kv) out with
      | Some out' => Some (out', S i)
      | None => None
      end
  | None => None
  end.

Definition fill {A} (zero : A) (f : K * V → A) (d : gmap K V)
  : option (list A) :=
  fst <$> foldl (fill_step f) (Some (make_slice zero (size d), 0%nat))
                (map_to_list d).

Definition List (m : Map) : option (list K) := fill zero fst (data m).

Definition Values (m : Map) : option (list V) := fill zero snd (data m).

Definition Remove (key : K) (m : Map) : bool * Map :=
  match data m !! key with
  | Some value =>
      (true, {| data := delete key (data m);
                reverseMap := removeFromReverseMap key value (reverseMap m) |})
  | None => (false, m)
  end.

Definition Len (m : Map) : Z := Z.of_nat (size (data m)).

(** ** The invariants of the data model *)

(** The keys filed under [value] in a reverse index; no bucket, no keys. *)
Definition bucket (r : gmap V (gset K)) (value : V) : gset K :=
  default ∅ (r !! value).

(** I1: every key of the forward map is in the bucket of its value. *)
Definition I1 (m : Map) : Prop :=
  map_Forall (λ k v, k ∈ bucket (reverseMap m) v) (data m).

(** I2: no bucket of the reverse map is empty. *)
Definition I2 (m : Map) : Prop :=
  map_Forall (λ (_ : V) (keyMap : gset K), keyMap ≠ ∅) (reverseMap m).

(** I3: every key of the bucket of [v] maps forward to [v]. *)
Definition I3 (m : Map) : Prop :=
  map_Forall (λ v (keyMap : gset K),
                set_Forall (λ k, data m !! k = Some v) keyMap) (reverseMap m).

(** The sum of the bucket sizes of a reverse index. *)
Definition bucket_total (r : gmap V (gset K)) : nat :=
  sum_list (size <$> (map_to_list r).*2).

(** I4: the forward map has as many keys as the buckets hold together. *)
Definition I4 (m : Map) : Prop :=
  size (data m) = bucket_total (reverseMap m).

Definition Inv (m : Map) : Prop := I1 m ∧ I2 m ∧ I3 m ∧ I4 m.

#[global] Instance I1_dec m : Decision (I1 m).
Proof. unfold I1. apply _. Defined.
#[global] Instance I2_dec m : Decision (I2 m).
Proof. unfold I2. apply _. Defined.
#[global] Instance I3_dec m : Decision (I3 m).
Proof. unfold I3. apply _. Defined.
#[global] Instance I4_dec m : Decision (I4 m).
Proof. unfold I4. apply _. Defined.
#[global] Instance Inv_dec m : Decision (Inv m).
Proof. unfold Inv. apply _. Defined.

(** I1, I2 and I3 together; I4 follows from them ([consistent_size]). *)
Definition Inv3 (m : Map) : Prop := I1 m ∧ I2 m ∧ I3 m.

(** Buckets that are present are never empty. *)
Definition no_empty (r : gmap V (gset K)) : Prop := ∀ v b, r !! v = Some b → b ≠ ∅.

(** The two indexes say the same: [k] maps to [v] exactly when [k] is
    filed under [v]. *)
Definition consistent (d : gmap K V) (r : gmap V (gset K)) : Prop :=
  ∀ k v, d !! k = Some v ↔ k ∈ bucket r v.

(** A bucket that would be left empty is dropped from the index. *)
Definition prune (b : gset K) : option (gset K) :=
  if decide (b = ∅) then None else Some b.

(** ** Sequences of calls *)

Inductive op : Type :=
| OpSet (key : K) (value : V)
| OpRemove (key : K).

Definition apply_op (m : Map) (o : op) : Map :=
  match o with
  | OpSet key value => Set_ key value m
  | OpRemove key => (Remove key m).2
  end.

Definition run (ops : list op) (m : Map) : Map := foldl apply_op m ops.

(** The key that a call works on. *)
Definition op_key (o : op) : K :=
  match o with
  | OpSet key _ => key
  | OpRemove key => key
  end.

End genericmap.

Arguments Map K V {_ _ _ _} : assert.
Arguments op K V : clear implicits.

(** ** Sample states (string keys, integer values) *)

Definition fruits : Map string Z :=
  New [ {[ "apple" := 5%Z; "banana" := 2%Z; "cherry" := 5%Z ]} ].

(** The same key given in two initial maps with different values. *)
Definition twice_a : Map string Z :=
  New [ {[ "a" := 1%Z ]} ; {[ "a" := 2%Z ]} ].

Definition only_b : Map string Z := Set_ "b" 3%Z (New []).

Definition a_and_c : Map string Z := Set_ "c" 1%Z (Set_ "a" 1%Z (New [])).

Definition fruit_prices : gmap string Z :=
  {[ "apple" := 5%Z; "banana" := 2%Z; "cherry" := 5%Z ]}.

(** The entries of [fruit_prices] in alphabetical order. *)
Definition fruit_visit : list (string * Z) :=
  [("apple", 5%Z); ("banana", 2%Z); ("cherry", 5%Z)].

(** * Proofs *)

Section proofs.
Context {K V : Type} `{Countable K} `{Countable V}.
Context `{Zero K} `{Zero V}.
Implicit Types (m : Map K V) (r : gmap V (gset K)) (d : gmap K V).
Implicit Types (k key : K) (v value : V) (b keyMap : gset K).

(** ** The reverse index, bucket by bucket *)

Lemma ensureBucket_is_Some v r : is_Some (ensureBucket v r !! v).
Proof.
  unfold ensureBucket. destruct (r !! v) eqn:E; [by rewrite E|].
  rewrite lookup_insert_eq. eauto.
Qed.

Lemma bucket_ensureBucket v r v' : bucket (ensureBucket v r) v' = bucket r v'.
Proof.
  unfold bucket, ensureBucket. destruct (r !! v) eqn:E; [done|].
  destruct (decide (v = v')) as [<-|Hne].
  - by rewrite lookup_insert_eq, E.
  - by rewrite lookup_insert_ne.
Qed.

Lemma lookup_removeFromReverseMap k v r v' :
  removeFromReverseMap k v r !! v'
  = if decide (v' = v) then prune (bucket r v ∖ {[k]}) else r !! v'.
Proof.
  unfold removeFromReverseMap, bucket, prune.
  destruct (r !! v) as [b|] eqn:E; simpl.
  - destruct (decide (size (b ∖ {[k]}) = 0%nat)) as [Hz|Hz].
    + apply size_empty_iff, leibniz_equiv in Hz.
      destruct (decide (v' = v)) as [->|Hv].
      * by rewrite lookup_delete_eq, decide_True.
      * by rewrite lookup_delete_ne.
    + destruct (decide (v' = v)) as [->|Hv].
      * rewrite lookup_insert_eq, decide_False; [done|].
        intros Hb. apply Hz. by rewrite Hb, size_empty.
      * by rewrite lookup_insert_ne.
  - destruct (decide (v' = v)) as [->|Hv]; [|done].
    by rewrite empty_difference_L, decide_True.
Qed.

Lemma lookup_addToBucket k v r v' :
  addToBucket k v (ensureBucket v r) !! v'
  = if decide (v' = v) then Some ({[k]} ∪ bucket r v) else r !! v'.
Proof.
  unfold addToBucket, ensureBucket, bucket.
  destruct (r !! v) as [b|] eqn:E; simpl.
  - rewrite E. destruct (decide (v' = v)) as [->|Hv].
    + by rewrite lookup_insert_eq.
    + by rewrite lookup_insert_ne.
  - rewrite lookup_insert_eq. destruct (decide (v' = v)) as [->|Hv].
    + by rewrite lookup_insert_eq.
    + by rewrite !lookup_insert_ne.
Qed.

Lemma default_prune b : default ∅ (prune b) = b.
Proof. unfold prune. by destruct (decide (b = ∅)) as [->|]. Qed.

Lemma bucket_addToBucket k v r v' :
  bucket (addToBucket k v (ensureBucket v r)) v'
  = if decide (v' = v) then {[k]} ∪ bucket r v else bucket r v'.
Proof.
  unfold bucket at 1. rewrite lookup_addToBucket.
  by destruct (decide (v' = v)).
Qed.

Lemma bucket_removeFromReverseMap k v r v' :
  bucket (removeFromReverseMap k v r) v'
  = if decide (v' = v) then bucket r v ∖ {[k]} else bucket r v'.
Proof.
  unfold bucket at 1. rewrite lookup_removeFromReverseMap.
  destruct (decide (v' = v)); [apply default_prune|done].
Qed.

Lemma no_empty_removeFromReverseMap k v r :
  no_empty r → no_empty (removeFromReverseMap k v r).
Proof.
  intros Hr v' b'. unfold removeFromReverseMap.
  destruct (r !! v) as [b|] eqn:E; [|apply Hr].
  destruct (decide (size (b ∖ {[k]}) = 0%nat)) as [Hz|Hz].
  - intros [_ Hl]%lookup_delete_Some. by eapply Hr.
  - intros [[<- <-]|[_ Hl]]%lookup_insert_Some; [|by eapply Hr].
    intros Hb. apply Hz. by rewrite Hb, size_empty.
Qed.

Lemma no_empty_addToBucket k v r :
  no_empty r → no_empty (addToBucket k v (ensureBucket v r)).
Proof.
  intros Hr v' b'. unfold addToBucket.
  destruct (ensureBucket_is_Some v r) as [b Hb]. rewrite Hb.
  intros [[<- <-]|[Hne Hl]]%lookup_insert_Some; [set_solver|].
  revert Hl. unfold ensureBucket. destruct (r !! v); [apply Hr|].
  rewrite lookup_insert_ne by done. apply Hr.
Qed.

(** ** The invariants, pointwise *)

Lemma I1_spec m :
  I1 m ↔ ∀ k v, data m !! k = Some v → k ∈ bucket (reverseMap m) v.
Proof. reflexivity. Qed.

Lemma I2_spec m : I2 m ↔ no_empty (reverseMap m).
Proof. reflexivity. Qed.

Lemma I3_spec m :
  I3 m ↔ ∀ k v, k ∈ bucket (reverseMap m) v → data m !! k = Some v.
Proof.
  unfold I3, bucket. rewrite map_Forall_lookup. split.
  - intros Hm k v Hk. destruct (reverseMap m !! v) as [b|] eqn:E; [|set_solver].
    by apply (Hm v b).
  - intros Hm v b E k Hk. apply Hm. by rewrite E.
Qed.

(** ** I4 follows from I1 and I3 *)

Lemma bucket_total_empty : bucket_total (∅ : gmap V (gset K)) = 0%nat.
Proof. unfold bucket_total. by rewrite map_to_list_empty. Qed.

Lemma bucket_total_insert v b r :
  r !! v = None → bucket_total (<[v:=b]> r) = (size b + bucket_total r)%nat.
Proof.
  intros Hv. unfold bucket_total.
  by rewrite (map_to_list_insert r v b Hv).
Qed.

Lemma consistent_size d r : consistent d r → size d = bucket_total r.
Proof.
  revert d. induction r as [|v b r Hv IH] using map_ind; intros d Hc.
  - rewrite bucket_total_empty. apply map_size_empty_iff, map_empty.
    intros k. destruct (d !! k) as [v|] eqn:E; [|done].
    apply Hc in E. unfold bucket in E. rewrite lookup_empty in E. set_solver.
  - rewrite (bucket_total_insert v b r Hv).
    set (P := λ kv : K * V, kv.2 = v).
    rewrite <- (map_filter_union_complement P d).
    rewrite map_size_disj_union by apply map_disjoint_filter_complement.
    f_equal.
    + rewrite <- size_dom. f_equal. apply set_eq. intros k.
      rewrite elem_of_dom. unfold is_Some.
      setoid_rewrite map_lookup_filter_Some. unfold P. simpl. split.
      * intros (v' & Hk & ->). apply Hc in Hk. unfold bucket in Hk.
        by rewrite lookup_insert_eq in Hk.
      * intros Hk. exists v. split; [|done]. apply Hc. unfold bucket.
        by rewrite lookup_insert_eq.
    + apply IH. intros k v'. rewrite map_lookup_filter_Some. unfold P. simpl.
      rewrite (Hc k v'). unfold bucket. split.
      * intros [Hk Hne]. by rewrite lookup_insert_ne in Hk.
      * intros Hk. destruct (decide (v = v')) as [<-|Hne].
        { rewrite Hv in Hk. set_solver. }
        by rewrite lookup_insert_ne.
Qed.

Lemma Inv_intro m : I1 m → I2 m → I3 m → Inv m.
Proof.
  intros Hi1 Hi2 Hi3. repeat split; try done.
  apply consistent_size. intros k v. split.
  - apply (proj1 (I1_spec m) Hi1).
  - apply (proj1 (I3_spec m) Hi3).
Qed.

(** ** What [Set] and [Remove] do to the two indexes *)

Lemma data_Set k v m : data (Set_ k v m) = <[k:=v]> (data m).
Proof.
  unfold Set_. destruct (decide (data m !! k = Some v)) as [E|E]; [|done].
  by rewrite insert_id.
Qed.

(** The index that [Set] builds when it does write. *)
Lemma reverseMap_Set_write k v m :
  data m !! k ≠ Some v →
  reverseMap (Set_ k v m)
  = addToBucket k v (ensureBucket v
      (match data m !! k with
       | Some oldValue => removeFromReverseMap k oldValue (reverseMap m)
       | None => reverseMap m
       end)).
Proof. intros E. unfold Set_. by rewrite decide_False. Qed.

Lemma Set_same k v m : data m !! k = Some v → Set_ k v m = m.
Proof. intros E. unfold Set_. by rewrite decide_True. Qed.

Lemma Remove_present k v m :
  data m !! k = Some v →
  Remove k m = (true, {| data := delete k (data m);
                         reverseMap := removeFromReverseMap k v (reverseMap m) |}).
Proof. intros E. unfold Remove. by rewrite E. Qed.

Lemma Remove_absent k m : data m !! k = None → Remove k m = (false, m).
Proof. intros E. unfold Remove. by rewrite E. Qed.

(** ** Preservation of I1, I2 and I3 *)

Lemma Inv3_Set k v m : Inv3 m → Inv3 (Set_ k v m).
Proof.
  intros (Hi1 & Hi2 & Hi3).
  destruct (decide (data m !! k = Some v)) as [E|E].
  { by rewrite Set_same. }
  rewrite I1_spec in Hi1. rewrite I3_spec in Hi3. rewrite I2_spec in Hi2.
  unfold Inv3. rewrite I1_spec, I2_spec, I3_spec.
  rewrite data_Set, (reverseMap_Set_write k v m E).
  split; [|split].
  - intros k' v'. rewrite bucket_addToBucket, lookup_insert_Some.
    intros [[<- <-]|[Hk Hl]].
    + rewrite decide_True by done. set_solver.
    + apply Hi1 in Hl as Hb. case_decide as Hv; [subst v'|].
      * apply elem_of_union_r. destruct (data m !! k) as [old|] eqn:Ek; [|done].
        rewrite bucket_removeFromReverseMap. rewrite decide_False; [done|congruence].
      * destruct (data m !! k) as [old|] eqn:Ek; [|done].
        rewrite bucket_removeFromReverseMap. case_decide; [subst; set_solver|done].
  - apply no_empty_addToBucket.
    destruct (data m !! k); [by apply no_empty_removeFromReverseMap|done].
  - intros k' v'. rewrite bucket_addToBucket.
    assert (∀ v'', k' ∈ bucket
              (match data m !! k with
               | Some oldValue => removeFromReverseMap k oldValue (reverseMap m)
               | None => reverseMap m
               end) v'' → data m !! k' = Some v'' ∧ k' ≠ k) as Hrem.
    { intros v''. destruct (data m !! k) as [old|] eqn:Ek.
      - rewrite bucket_removeFromReverseMap. case_decide as Hv; [subst v''|].
        + intros [Hin Hne]%elem_of_difference. split; [by apply Hi3|set_solver].
        + intros Hin%Hi3. split; [done|congruence].
      - intros Hin%Hi3. split; [done|congruence]. }
    case_decide as Hv; [subst v'|].
    + intros [->%elem_of_singleton|Hin]%elem_of_union.
      * by rewrite lookup_insert_eq.
      * apply Hrem in Hin as [Hl Hne]. by rewrite lookup_insert_ne.
    + intros [Hl Hne]%Hrem. by rewrite lookup_insert_ne.
Qed.

Lemma Inv3_Remove k m : Inv3 m → Inv3 (Remove k m).2.
Proof.
  intros (Hi1 & Hi2 & Hi3).
  destruct (data m !! k) as [v|] eqn:E.
  2:{ by rewrite Remove_absent. }
  rewrite (Remove_present k v m E). simpl.
  rewrite I1_spec in Hi1. rewrite I3_spec in Hi3. rewrite I2_spec in Hi2.
  unfold Inv3. rewrite I1_spec, I2_spec, I3_spec. simpl.
  split; [|split].
  - intros k' v' [Hne Hl]%lookup_delete_Some.
    rewrite bucket_removeFromReverseMap. apply Hi1 in Hl.
    case_decide; [subst; set_solver|done].
  - by apply no_empty_removeFromReverseMap.
  - intros k' v'. rewrite bucket_removeFromReverseMap, lookup_delete_Some.
    case_decide as Hv; [subst v'|].
    + intros [Hin Hne]%elem_of_difference. split; [set_solver|by apply Hi3].
    + intros Hin%Hi3. split; [congruence|done].
Qed.

Lemma Inv3_empty : Inv3 (New ([] : list (gmap K V))).
Proof.
  unfold Inv3, I1, I2, I3. simpl. unfold make_map.
  split; [|split]; apply map_Forall_empty.
Qed.

Lemma Inv3_run ops m : Inv3 m → Inv3 (run ops m).
Proof.
  revert m. induction ops as [|o ops IH]; intros m Hm; [done|].
  simpl. apply IH. destruct o as [k v|k]; simpl.
  - by apply Inv3_Set.
  - by apply Inv3_Remove.
Qed.

Lemma Inv3_Inv m : Inv3 m → Inv m.
Proof. intros (Hi1 & Hi2 & Hi3). by apply Inv_intro. Qed.

(** C1.  Starting from the empty map, after every finite sequence of
    [Set] and [Remove] calls the invariants I1, I2, I3 and I4 hold:
    every key of the forward map is in the bucket of its value, no
    bucket is empty, every key of a bucket maps forward to the bucket's
    value, and the forward map has as many keys as the buckets hold
    together. *)
Theorem invariants_preserved (ops : list (op K V)) :
  let m := run ops (New []) in I1 m ∧ I2 m ∧ I3 m ∧ I4 m.
Proof. apply Inv3_Inv, Inv3_run, Inv3_empty. Qed.

(** ** The constructor *)

Lemma New_nil :
  New ([] : list (gmap K V)) = {| data := ∅; reverseMap := ∅ |}.
Proof. reflexivity. Qed.

(** On a key that is not in the map yet, the loop body of [New] is [Set]. *)
Lemma populate_fresh m k v :
  data m !! k = None → populate m (k, v) = Set_ k v m.
Proof.
  intros E. unfold populate, Set_. simpl. rewrite E.
  by rewrite decide_False.
Qed.

Lemma populate_fresh_list (l : list (K * V)) m :
  NoDup l.*1 → (∀ k, k ∈ l.*1 → data m !! k = None) →
  foldl populate m l = run ((λ kv, OpSet kv.1 kv.2) <$> l) m.
Proof.
  revert m. induction l as [|[k v] l IH]; intros m Hnd Hfresh; [done|].
  simpl in *. apply NoDup_cons in Hnd as [Hk Hnd].
  rewrite populate_fresh by (apply Hfresh; left).
  apply IH; [done|]. intros k' Hk'. rewrite data_Set.
  rewrite lookup_insert_ne by (intros ->; done).
  apply Hfresh. by right.
Qed.

(** One initial map: [New] is a run of [Set] calls from the empty map. *)
Lemma New_single_run d :
  New [d] = run ((λ kv, OpSet kv.1 kv.2) <$> map_to_list d) (New []).
Proof.
  unfold New at 1. simpl. apply populate_fresh_list.
  - apply NoDup_fst_map_to_list.
  - intros k _. apply lookup_empty.
Qed.

Lemma New_single_Inv d : Inv (New [d]).
Proof. rewrite New_single_run. apply Inv3_Inv, Inv3_run, Inv3_empty. Qed.

(** The forward map of [New]: a later initial map overwrites an earlier
    one (the union of stdpp prefers its left operand). *)
Lemma data_populate_list (l : list (K * V)) m :
  NoDup l.*1 → data (foldl populate m l) = list_to_map l ∪ data m.
Proof.
  revert m. induction l as [|[k v] l IH]; intros m Hnd; simpl.
  - by rewrite (left_id_L ∅ (∪)).
  - apply NoDup_cons in Hnd as [Hk Hnd]. rewrite IH by done. simpl.
    rewrite <- insert_union_l. symmetry. apply insert_union_r.
    by apply not_elem_of_list_to_map_1.
Qed.

Lemma data_New_from m0 (initialData : list (gmap K V)) :
  data (foldl (λ m dataMap, foldl populate m (map_to_list dataMap))
              m0 initialData)
  = foldl (λ acc d, d ∪ acc) (data m0) initialData.
Proof.
  revert m0. induction initialData as [|d ds IH]; intros m0; [done|].
  simpl. rewrite IH. f_equal.
  rewrite data_populate_list by apply NoDup_fst_map_to_list.
  by rewrite list_to_map_to_list.
Qed.

Lemma data_New (initialData : list (gmap K V)) :
  data (New initialData) = foldl (λ acc d, d ∪ acc) ∅ initialData.
Proof. unfold New. by rewrite data_New_from. Qed.

(** Last write wins in the forward map: the last initial map decides, the
    earlier ones fill in the keys it does not have. *)
Lemma data_New_snoc (initialData : list (gmap K V)) d k :
  data (New (initialData ++ [d])) !! k
  = match d !! k with
    | Some v => Some v
    | None => data (New initialData) !! k
    end.
Proof.
  rewrite !data_New, foldl_snoc. rewrite lookup_union.
  destruct (d !! k); [|by rewrite (left_id None _)].
  by destruct (foldl _ _ _ !! k).
Qed.

(** The order in which [range] visits the entries of one initial map does
    not matter: the loop body commutes on distinct keys. *)
Lemma populate_comm m k1 v1 k2 v2 :
  k1 ≠ k2 →
  populate (populate m (k1, v1)) (k2, v2)
  = populate (populate m (k2, v2)) (k1, v1).
Proof.
  intros Hk. unfold populate. simpl. f_equal.
  - by apply insert_insert_ne.
  - apply map_eq. intros v. rewrite !lookup_addToBucket, !bucket_addToBucket.
    destruct (decide (v = v2)) as [Hv2|Hv2], (decide (v = v1)) as [Hv1|Hv1].
    + subst v v2. rewrite !decide_True by done. f_equal.
      rewrite !(assoc_L (∪)). f_equal. apply (comm_L (∪)).
    + subst v. by rewrite decide_False.
    + subst v. by rewrite decide_False.
    + done.
Qed.

Lemma populate_Permutation (l l' : list (K * V)) m :
  l ≡ₚ l' → NoDup l.*1 → foldl populate m l = foldl populate m l'.
Proof.
  intros Hp. revert m. induction Hp as [|x l l' Hp IH|x y l|l l' l'' Hp IH Hp' IH'];
    intros m Hnd.
  - done.
  - simpl. apply IH. by apply NoDup_cons in Hnd as [_ ?].
  - simpl. destruct x as [k1 v1], y as [k2 v2]. rewrite populate_comm; [done|].
    simpl in Hnd. apply NoDup_cons in Hnd as [Hk _]. set_solver.
  - rewrite IH by done. apply IH'. by rewrite <- Hp.
Qed.

(** Whatever the initial maps, [New] keeps every key in the bucket of its
    value and leaves no empty bucket. *)
Lemma populate_I1_I2 m kv : I1 m ∧ I2 m → I1 (populate m kv) ∧ I2 (populate m kv).
Proof.
  destruct kv as [k v]. intros [Hi1 Hi2].
  rewrite I1_spec in Hi1. rewrite I2_spec in Hi2.
  rewrite I1_spec, I2_spec. simpl. split.
  - intros k' v'. rewrite bucket_addToBucket, lookup_insert_Some.
    intros [[<- <-]|[Hk Hl%Hi1]].
    + rewrite decide_True by done. set_solver.
    + case_decide; [subst; set_solver|done].
  - by apply no_empty_addToBucket.
Qed.

Lemma populate_list_I1_I2 (l : list (K * V)) m :
  I1 m ∧ I2 m → I1 (foldl populate m l) ∧ I2 (foldl populate m l).
Proof.
  revert m. induction l as [|kv l IH]; intros m Hm; [done|].
  simpl. by apply IH, populate_I1_I2.
Qed.

Lemma New_I1_I2 (initialData : list (gmap K V)) :
  I1 (New initialData) ∧ I2 (New initialData).
Proof.
  unfold New. set (m0 := {| data := make_map 0; reverseMap := make_map 0 |}).
  assert (I1 m0 ∧ I2 m0) as Hm0 by (split; apply map_Forall_empty).
  clearbody m0. revert m0 Hm0.
  induction initialData as [|d ds IH]; intros m0 Hm0; [done|].
  simpl. by apply IH, populate_list_I1_I2.
Qed.

(** ** Reads *)

Lemma foldl_append {A} (acc l : list A) :
  foldl (λ result x, result ++ [x]) acc l = acc ++ l.
Proof.
  revert acc. induction l as [|x l IH]; intros acc; simpl.
  - by rewrite app_nil_r.
  - by rewrite IH, <- app_assoc.
Qed.

Lemma GetKeys_elements v m :
  GetKeys v m = elements (bucket (reverseMap m) v).
Proof.
  unfold GetKeys, bucket. destruct (reverseMap m !! v) as [b|]; simpl.
  - apply foldl_append.
  - by rewrite elements_empty.
Qed.

Lemma elem_of_GetKeys k v m :
  k ∈ GetKeys v m ↔ k ∈ bucket (reverseMap m) v.
Proof. by rewrite GetKeys_elements, elem_of_elements. Qed.

Lemma NoDup_GetKeys v m : NoDup (GetKeys v m).
Proof. rewrite GetKeys_elements. apply NoDup_elements. Qed.

Lemma GetKeys_nil v m : GetKeys v m = [] ↔ bucket (reverseMap m) v = ∅.
Proof.
  rewrite GetKeys_elements. split.
  - intros E. by apply leibniz_equiv, elements_empty_inv.
  - intros ->. apply elements_empty.
Qed.

Lemma elem_of_GetKeys_data v m k :
  I1 m → I3 m → k ∈ GetKeys v m ↔ data m !! k = Some v.
Proof.
  intros Hi1 Hi3. rewrite I1_spec in Hi1. rewrite I3_spec in Hi3.
  rewrite elem_of_GetKeys. split; [apply Hi3|apply Hi1].
Qed.

(** The states that [Set] and [Remove] reach from the empty map. *)
Lemma elem_of_GetKeys_run (ops : list (op K V)) v k :
  let m := run ops (New []) in
  k ∈ GetKeys v m ↔ data m !! k = Some v.
Proof.
  intros m. destruct (Inv3_run ops (New []) Inv3_empty) as (Hi1 & _ & Hi3).
  by apply elem_of_GetKeys_data.
Qed.

(** X19.  On [New] of one initial map (the empty map included), after
    every sequence of [Set] and [Remove] calls, [GetKeys v] returns the
    keys [k] with [forward[k] = v], each exactly once and nothing else,
    and the empty slice when no key maps to [v]. *)
Theorem GetKeys_exact_reachable (d : gmap K V) (ops : list (op K V)) v :
  let m := run ops (New [d]) in
  NoDup (GetKeys v m)
  ∧ (∀ k, k ∈ GetKeys v m ↔ data m !! k = Some v)
  ∧ ((∀ k, data m !! k ≠ Some v) → GetKeys v m = []).
Proof.
  intros m.
  assert (Inv3 m) as (Hi1 & _ & Hi3).
  { unfold m. rewrite New_single_run. apply Inv3_run, Inv3_run, Inv3_empty. }
  assert (∀ k, k ∈ GetKeys v m ↔ data m !! k = Some v) as Hmem
    by (intros k; by apply elem_of_GetKeys_data).
  split; [apply NoDup_GetKeys|]. split; [done|].
  intros Hnone. destruct (GetKeys v m) as [|k l] eqn:E; [done|].
  destruct (Hnone k). apply Hmem. by left.
Qed.

(** ** Set then Get *)

(** C4.  [Set k v] followed by [Get k] returns [(v, true)]; and [Get] of
    a key that is absent from the map returns the zero value and
    [found = false]. *)
Theorem Set_Get_roundtrip m :
  (∀ k v, Get k (Set_ k v m) = (v, true))
  ∧ (∀ k, data m !! k = None → Get k m = (zero, false)).
Proof.
  split.
  - intros k v. unfold Get. by rewrite data_Set, lookup_insert_eq.
  - intros k E. unfold Get. by rewrite E.
Qed.

(** ** Remove *)

(** C5.  [Remove k] returns [true] exactly when [k] was present.  When
    it was, mapped to [oldValue], [k] is deleted from the forward map
    and taken out of the bucket of [oldValue], and that bucket is
    deleted from the reverse map when it is left empty; the other
    buckets stay.  When [k] was absent the call returns [false] and the
    whole state is unchanged. *)
Theorem Remove_spec m :
  (∀ k, (Remove k m).1 = true ↔ is_Some (data m !! k))
  ∧ (∀ k oldValue, data m !! k = Some oldValue →
       data (Remove k m).2 = delete k (data m)
       ∧ ∀ v, reverseMap (Remove k m).2 !! v
              = if decide (v = oldValue)
                then prune (bucket (reverseMap m) oldValue ∖ {[k]})
                else reverseMap m !! v)
  ∧ (∀ k, data m !! k = None → Remove k m = (false, m)).
Proof.
  split; [|split].
  - intros k. unfold Remove. destruct (data m !! k) as [v|]; simpl.
    + split; eauto.
    + split; [done|]. by intros [? ?].
  - intros k old E. rewrite (Remove_present k old m E). simpl.
    split; [done|]. intros v. apply lookup_removeFromReverseMap.
  - intros k. apply Remove_absent.
Qed.

(** ** Set with the value the key already has *)

(** C6.  When [k] already maps to [v], [Set k v] is a no-op: [Len],
    [GetKeys v] and the forward and reverse indexes are the same before
    and after the call. *)
Theorem Set_same_value_noop k v m :
  data m !! k = Some v →
  Len (Set_ k v m) = Len m
  ∧ GetKeys v (Set_ k v m) = GetKeys v m
  ∧ data (Set_ k v m) = data m
  ∧ reverseMap (Set_ k v m) = reverseMap m.
Proof. intros E. by rewrite (Set_same k v m E). Qed.

(** Two calls in a row, from any state. *)
Lemma Set_twice k v m : Set_ k v (Set_ k v m) = Set_ k v m.
Proof. apply Set_same. by rewrite data_Set, lookup_insert_eq. Qed.

(** ** Set and the other keys *)

Lemma bucket_Set_other k v m k' v' :
  k' ≠ k →
  k' ∈ bucket (reverseMap (Set_ k v m)) v' ↔ k' ∈ bucket (reverseMap m) v'.
Proof.
  intros Hk. destruct (decide (data m !! k = Some v)) as [E|E].
  { by rewrite Set_same. }
  rewrite (reverseMap_Set_write k v m E), bucket_addToBucket.
  assert (k' ∈ bucket
            (match data m !! k with
             | Some oldValue => removeFromReverseMap k oldValue (reverseMap m)
             | None => reverseMap m
             end) v' ↔ k' ∈ bucket (reverseMap m) v') as Hrem.
  { destruct (data m !! k) as [old|]; [|done].
    rewrite bucket_removeFromReverseMap.
    destruct (decide (v' = old)) as [->|?]; [|done].
    rewrite elem_of_difference, elem_of_singleton. by split; [intros [? _]|]. }
  destruct (decide (v' = v)) as [->|Hv]; [|done].
  rewrite elem_of_union, elem_of_singleton, Hrem.
  split; [by intros [?|?]|by right].
Qed.

(** C10.  [Set k v] does not affect another key [k']: [Get k'] returns
    the same before and after, and for every value [v'] the key [k'] is
    in [GetKeys v'] after the call exactly when it was before. *)
Theorem Set_frame k v k' m :
  k' ≠ k →
  Get k' (Set_ k v m) = Get k' m
  ∧ ∀ v', k' ∈ GetKeys v' (Set_ k v m) ↔ k' ∈ GetKeys v' m.
Proof.
  intros Hk. split.
  - unfold Get. by rewrite data_Set, lookup_insert_ne.
  - intros v'. rewrite !elem_of_GetKeys. by apply bucket_Set_other.
Qed.

(** ** List and Values *)

Lemma fill_step_foldl {A} (f : K * V → A) (l : list (K * V))
    (filled rest : list A) :
  length rest = length l →
  foldl (fill_step f) (Some (filled ++ rest, length filled)) l
  = Some (filled ++ (f <$> l), (length filled + length l)%nat).
Proof.
  revert filled rest. induction l as [|kv l IH]; intros filled rest Hlen.
  - destruct rest; [|done]. simpl. by rewrite Nat.add_0_r.
  - destruct rest as [|z rest]; [done|]. simpl in Hlen.
    cbn [foldl fill_step]. unfold slice_store.
    rewrite decide_True by (rewrite length_app; simpl; lia).
    rewrite insert_app_r_alt by lia. rewrite Nat.sub_diag. simpl.
    replace (S (length filled)) with (length (filled ++ [f kv]))
      by (rewrite length_app; simpl; lia).
    rewrite (cons_middle (f kv) filled rest), app_assoc.
    rewrite IH by lia. rewrite <- app_assoc. simpl.
    f_equal. f_equal. rewrite length_app. simpl. lia.
Qed.

(** The loop never writes out of range and fills the whole slice. *)
Lemma fill_total {A} (z : A) (f : K * V → A) d :
  fill z f d = Some (f <$> map_to_list d).
Proof.
  unfold fill, make_slice.
  pose proof (fill_step_foldl f (map_to_list d) [] (replicate (size d) z)) as E.
  simpl in E. rewrite E; [done|].
  by rewrite length_replicate, length_map_to_list.
Qed.

(** C9.  [Values()] returns one entry for each key of the forward map,
    equal values repeated: its length is [Len()] and, as a multiset, it
    is the values of the forward map.  [List()] returns the keys of the
    forward map, each once and nothing else; its length is [Len()]. *)
Theorem List_Values_spec m :
  ∃ keys values,
    List m = Some keys ∧ Values m = Some values
    ∧ values ≡ₚ (map_to_list (data m)).*2
    ∧ Z.of_nat (length values) = Len m
    ∧ NoDup keys
    ∧ (∀ k, k ∈ keys ↔ is_Some (data m !! k))
    ∧ Z.of_nat (length keys) = Len m.
Proof.
  exists (map_to_list (data m)).*1, (map_to_list (data m)).*2.
  unfold List, Values, Len. rewrite !fill_total.
  split; [done|]. split; [done|]. split; [done|].
  split; [by rewrite length_fmap, length_map_to_list|].
  split; [apply NoDup_fst_map_to_list|].
  split; [|by rewrite length_fmap, length_map_to_list].
  intros k. rewrite list_elem_of_fmap. split.
  - intros ([k' v] & -> & Hin). apply elem_of_map_to_list in Hin. eauto.
  - intros [v Hv]. exists (k, v). split; [done|]. by apply elem_of_map_to_list.
Qed.

(** ** Overwriting a key *)

Lemma Set_overwrite k v1 v2 m :
  v1 ≠ v2 →
  let m' := Set_ k v2 (Set_ k v1 m) in
  (k ∉ GetKeys v1 m') ∧ k ∈ GetKeys v2 m'
  ∧ Len m' = (1 + Z.of_nat (size (delete k (data m))))%Z
  ∧ reverseMap m' !! v1 = prune (bucket (reverseMap m) v1 ∖ {[k]}).
Proof.
  intros Hv m'. set (m1 := Set_ k v1 m).
  assert (data m1 !! k = Some v1) as E1
    by (unfold m1; by rewrite data_Set, lookup_insert_eq).
  assert (data m1 !! k ≠ Some v2) as E2 by (rewrite E1; congruence).
  assert (reverseMap m'
          = addToBucket k v2 (ensureBucket v2
              (removeFromReverseMap k v1 (reverseMap m1)))) as Er.
  { unfold m'. fold m1. rewrite (reverseMap_Set_write k v2 m1 E2). by rewrite E1. }
  split; [|split; [|split]].
  - rewrite elem_of_GetKeys, Er, bucket_addToBucket.
    rewrite decide_False by done.
    rewrite bucket_removeFromReverseMap, decide_True by done.
    rewrite elem_of_difference, elem_of_singleton. by intros [_ ?].
  - rewrite elem_of_GetKeys, Er, bucket_addToBucket.
    rewrite decide_True by done.
    apply elem_of_union_l. by apply elem_of_singleton.
  - unfold Len, m', m1. rewrite !data_Set, insert_insert_eq.
    rewrite <- (insert_delete_eq (data m)).
    rewrite map_size_insert_None by apply lookup_delete_eq. lia.
  - rewrite Er, lookup_addToBucket, decide_False by done.
    rewrite lookup_removeFromReverseMap, decide_True by done.
    f_equal. apply set_eq. intros k'.
    rewrite !elem_of_difference, !elem_of_singleton.
    split; intros [Hin Hne]; (split; [|done]);
      by apply (bucket_Set_other k v1 m k' v1 Hne).
Qed.

(** * Further properties of the constructor *)

Lemma bucket_populate_list (l : list (K * V)) m k v :
  k ∈ bucket (reverseMap (foldl populate m l)) v
  ↔ k ∈ bucket (reverseMap m) v ∨ (k, v) ∈ l.
Proof.
  revert m. induction l as [|[k0 v0] l IH]; intros m; simpl.
  - rewrite elem_of_nil. by split; [left|intros [?|[]]].
  - rewrite IH, elem_of_cons. simpl. rewrite bucket_addToBucket.
    destruct (decide (v = v0)) as [->|Hv].
    + rewrite elem_of_union, elem_of_singleton. split.
      * intros [[->|?]|?]; [right; by left|by left|right; by right].
      * intros [?|[[= ->]|?]]; [left; by right|left; by left|by right].
    + split.
      * intros [?|?]; [by left|right; by right].
      * intros [?|[[= -> ->]|?]]; [by left|done|by right].
Qed.

Lemma bucket_New_from m0 (initialData : list (gmap K V)) k v :
  k ∈ bucket (reverseMap
        (foldl (λ m dataMap, foldl populate m (map_to_list dataMap))
               m0 initialData)) v
  ↔ k ∈ bucket (reverseMap m0) v ∨ ∃ d, d ∈ initialData ∧ d !! k = Some v.
Proof.
  revert m0. induction initialData as [|d ds IH]; intros m0; simpl.
  - split; [by left|]. intros [?|(d & Hd & _)]; [done|]. by apply elem_of_nil in Hd.
  - rewrite IH, bucket_populate_list, elem_of_map_to_list. split.
    + intros [[?|?]|(d' & Hd' & Hk)]; [by left| |].
      * right. exists d. split; [by left|done].
      * right. exists d'. split; [by right|done].
    + intros [?|(d' & [->|Hd']%elem_of_cons & Hk)].
      * left. by left.
      * left. by right.
      * right. by exists d'.
Qed.

Lemma lookup_foldl_union_Some (ds : list (gmap K V)) d0 k v :
  foldl (λ acc d, d ∪ acc) d0 ds !! k = Some v →
  d0 !! k = Some v ∨ ∃ d, d ∈ ds ∧ d !! k = Some v.
Proof.
  revert d0. induction ds as [|d ds IH]; intros d0; simpl; [by left|].
  intros [Hk|(d' & Hd' & Hk)]%IH.
  - apply lookup_union_Some_raw in Hk as [Hk|[_ Hk]]; [|by left].
    right. exists d. split; [by left|done].
  - right. exists d'. split; [by right|done].
Qed.

Lemma lookup_foldl_union_is_Some (ds : list (gmap K V)) d0 k :
  (is_Some (d0 !! k) ∨ ∃ d, d ∈ ds ∧ is_Some (d !! k)) →
  is_Some (foldl (λ acc d, d ∪ acc) d0 ds !! k).
Proof.
  revert d0. induction ds as [|d ds IH]; intros d0; simpl.
  - intros [?|(d & Hd & _)]; [done|]. by apply elem_of_nil in Hd.
  - intros Hk. apply IH. destruct Hk as [Hk|(d' & [->|Hd']%elem_of_cons & Hk)].
    + left. apply lookup_union_is_Some. by right.
    + left. apply lookup_union_is_Some. by left.
    + right. by exists d'.
Qed.

Lemma elem_of_GetKeys_New (initialData : list (gmap K V)) k v :
  k ∈ GetKeys v (New initialData)
  ↔ ∃ d, d ∈ initialData ∧ d !! k = Some v.
Proof.
  rewrite elem_of_GetKeys. unfold New. rewrite bucket_New_from.
  split; [|by right]. intros [Hk|?]; [|done].
  unfold bucket, make_map in Hk. simpl in Hk. rewrite lookup_empty in Hk.
  by apply not_elem_of_empty in Hk.
Qed.

(** X1.  [New] with one initial map returns a structure whose forward map
    is that map and on which I1, I2, I3 and I4 hold. *)
Theorem New_single d :
  data (New [d]) = d ∧ Len (New [d]) = Z.of_nat (size d) ∧ Inv (New [d]).
Proof.
  assert (data (New [d]) = d) as E.
  { rewrite data_New. simpl. by rewrite (right_id_L ∅ (∪)). }
  split; [done|]. split; [unfold Len; by rewrite E|].
  apply New_single_Inv.
Qed.

(** X2.  After [New], [GetKeys v] holds exactly the keys that some initial
    map gives the value [v]: the constructor files every pair it reads and
    never takes a key out of a bucket. *)
Theorem New_GetKeys (initialData : list (gmap K V)) k v :
  k ∈ GetKeys v (New initialData)
  ↔ ∃ d, d ∈ initialData ∧ d !! k = Some v.
Proof. apply elem_of_GetKeys_New. Qed.

(** X3.  Forward lookups after [New] are last-write-wins: a key of the
    last initial map has the value given there, any other key has what
    the earlier maps give. *)
Theorem New_Get_last_wins (initialData : list (gmap K V)) d k :
  Get k (New (initialData ++ [d]))
  = match d !! k with
    | Some v => (v, true)
    | None => Get k (New initialData)
    end.
Proof.
  unfold Get. rewrite data_New_snoc. by destruct (d !! k).
Qed.

(** X4.  The structure that [New] returns satisfies I1-I4 exactly when no
    key is given two different values by the initial maps. *)
Theorem New_Inv_iff (initialData : list (gmap K V)) :
  Inv (New initialData)
  ↔ ∀ d d' k v v', d ∈ initialData → d' ∈ initialData →
      d !! k = Some v → d' !! k = Some v' → v = v'.
Proof.
  split.
  - intros (_ & _ & Hi3 & _) d d' k v v' Hd Hd' Hk Hk'.
    rewrite I3_spec in Hi3.
    assert (data (New initialData) !! k = Some v) as E
      by (apply Hi3, elem_of_GetKeys, elem_of_GetKeys_New; eauto).
    assert (data (New initialData) !! k = Some v') as E'
      by (apply Hi3, elem_of_GetKeys, elem_of_GetKeys_New; eauto).
    congruence.
  - intros Hagree. destruct (New_I1_I2 initialData) as [Hi1 Hi2].
    apply Inv_intro; [done|done|]. apply I3_spec. intros k v.
    rewrite <- elem_of_GetKeys, elem_of_GetKeys_New.
    intros (d & Hd & Hk).
    destruct (lookup_foldl_union_is_Some initialData ∅ k) as [v' Hv'].
    { right. exists d. split; [done|]. by rewrite Hk. }
    rewrite data_New, Hv'. f_equal.
    apply lookup_foldl_union_Some in Hv' as [Hv'|(d' & Hd' & Hk')].
    + by rewrite lookup_empty in Hv'.
    + by apply (Hagree d' d k v' v).
Qed.

(** X5.  The order in which [range] visits the entries of each initial
    map does not change what [New] returns. *)
Theorem New_range_order (initialData : list (gmap K V))
    (visits : list (list (K * V))) :
  Forall2 (λ l d, l ≡ₚ map_to_list d) visits initialData →
  foldl (λ m l, foldl populate m l)
        {| data := make_map 0; reverseMap := make_map 0 |} visits
  = New initialData.
Proof.
  unfold New. generalize ({| data := make_map 0; reverseMap := make_map 0 |} : Map K V).
  intros m0 Hv. revert m0.
  induction Hv as [|l d ls ds Hl Hv IH]; intros m0; [done|].
  simpl. rewrite IH. f_equal. apply populate_Permutation; [done|].
  rewrite Hl. apply NoDup_fst_map_to_list.
Qed.

(** * Further properties of Set and Remove *)

Lemma prune_bucket r v : no_empty r → prune (bucket r v) = r !! v.
Proof.
  intros Hr. unfold prune, bucket. destruct (r !! v) as [b|] eqn:E; simpl.
  - rewrite decide_False; [done|]. by apply (Hr v).
  - by rewrite decide_True.
Qed.

Lemma lookup_bucket r v k : k ∈ bucket r v → r !! v = Some (bucket r v).
Proof.
  unfold bucket. destruct (r !! v); [done|]. simpl.
  intros Hk. by apply not_elem_of_empty in Hk.
Qed.

Lemma data_Remove k m : data (Remove k m).2 = delete k (data m).
Proof.
  unfold Remove. destruct (data m !! k) eqn:E; simpl; [done|].
  by rewrite delete_id.
Qed.

Lemma bucket_Remove_other k m k' v' :
  k' ≠ k →
  k' ∈ bucket (reverseMap (Remove k m).2) v' ↔ k' ∈ bucket (reverseMap m) v'.
Proof.
  intros Hk. unfold Remove. destruct (data m !! k) as [v|]; simpl; [|done].
  rewrite bucket_removeFromReverseMap.
  destruct (decide (v' = v)) as [->|?]; [|done].
  rewrite elem_of_difference, elem_of_singleton. by split; [intros [? _]|].
Qed.

(** X6.  On a state with no empty bucket and whose buckets agree with the
    forward map (I2, I3), setting a key that is absent and removing it
    again returns [true] and gives back the state as it was, bucket
    pruning included. *)
Theorem Remove_Set_roundtrip k v m :
  I2 m → I3 m → data m !! k = None →
  Remove k (Set_ k v m) = (true, m).
Proof.
  intros Hi2 Hi3 E. rewrite I3_spec in Hi3. rewrite I2_spec in Hi2.
  assert (data m !! k ≠ Some v) as E' by (rewrite E; done).
  rewrite (Remove_present k v) by (by rewrite data_Set, lookup_insert_eq).
  f_equal. rewrite data_Set, (reverseMap_Set_write k v m E'), E.
  rewrite delete_insert_id by done.
  destruct m as [d r]. simpl in *. f_equal.
  apply map_eq. intros v'. rewrite lookup_removeFromReverseMap.
  destruct (decide (v' = v)) as [->|Hv].
  - rewrite bucket_addToBucket, decide_True by done.
    rewrite <- (prune_bucket r v Hi2). f_equal.
    apply set_eq. intros k'.
    rewrite elem_of_difference, elem_of_union, elem_of_singleton. split.
    + by intros [[?|?] ?].
    + intros Hk'. split; [by right|]. intros ->.
      apply Hi3 in Hk'. congruence.
  - by rewrite lookup_addToBucket, decide_False.
Qed.

(** X7.  On a state where [k] is in the bucket of its value (I1), removing
    [k] and setting it again to the value it had gives back the state as
    it was. *)
Theorem Set_Remove_roundtrip k v m :
  I1 m → data m !! k = Some v →
  Set_ k v (Remove k m).2 = m.
Proof.
  intros Hi1 E. rewrite I1_spec in Hi1. apply Hi1 in E as Hin.
  rewrite (Remove_present k v m E). simpl. unfold Set_. simpl.
  rewrite lookup_delete_eq. rewrite decide_False by done.
  rewrite insert_delete_id by done.
  destruct m as [d r]. simpl in *. f_equal.
  apply map_eq. intros v'. rewrite lookup_addToBucket.
  destruct (decide (v' = v)) as [->|Hv].
  - rewrite bucket_removeFromReverseMap, decide_True by done.
    rewrite (lookup_bucket r v k Hin). f_equal.
    apply set_eq. intros k'.
    rewrite elem_of_union, elem_of_difference, elem_of_singleton. split.
    + by intros [->|[? _]].
    + intros Hk'. destruct (decide (k' = k)); [by left|by right].
  - by rewrite lookup_removeFromReverseMap, decide_False.
Qed.

(** X8.  [Set] adds one to [Len()] exactly when the key was absent, and
    [Remove] takes one off exactly when it returns [true]. *)
Theorem Len_Set_Remove k v m :
  Len (Set_ k v m) = (Len m + (if (Get k m).2 then 0 else 1))%Z
  ∧ Len (Remove k m).2 = (Len m - (if (Remove k m).1 then 1 else 0))%Z.
Proof.
  unfold Len. rewrite data_Set, data_Remove.
  rewrite map_size_insert, map_size_delete. unfold Get, Remove.
  destruct (data m !! k) as [old|] eqn:E; simpl; [|lia].
  assert (size (data m) ≠ 0%nat); [|lia].
  intros Hz%map_size_empty_iff. by rewrite Hz, lookup_empty in E.
Qed.

(** X9.  [Remove k] does not affect another key [k']: [Get k'] returns the
    same before and after, and [k'] is in [GetKeys v'] after the call
    exactly when it was before. *)
Theorem Remove_frame k k' m :
  k' ≠ k →
  Get k' (Remove k m).2 = Get k' m
  ∧ ∀ v', k' ∈ GetKeys v' (Remove k m).2 ↔ k' ∈ GetKeys v' m.
Proof.
  intros Hk. split.
  - unfold Get. by rewrite data_Remove, lookup_delete_ne.
  - intros v'. rewrite !elem_of_GetKeys. by apply bucket_Remove_other.
Qed.

(** X10.  After [Remove k] the key is gone: [Get k] finds nothing, a
    second [Remove k] returns [false] and changes nothing, and, when the
    buckets agreed with the forward map (I3), no [GetKeys v] holds [k]. *)
Theorem Remove_gone k m :
  Get k (Remove k m).2 = (zero, false)
  ∧ Remove k (Remove k m).2 = (false, (Remove k m).2)
  ∧ (I3 m → ∀ v, k ∉ GetKeys v (Remove k m).2).
Proof.
  assert (data (Remove k m).2 !! k = None) as E
    by (by rewrite data_Remove, lookup_delete_eq).
  split; [unfold Get; by rewrite E|]. split; [by apply Remove_absent|].
  intros Hi3 v. rewrite I3_spec in Hi3. rewrite elem_of_GetKeys.
  unfold Remove. destruct (data m !! k) as [old|] eqn:Ek; simpl.
  - rewrite bucket_removeFromReverseMap.
    destruct (decide (v = old)) as [->|Hv].
    + rewrite elem_of_difference, elem_of_singleton. by intros [_ ?].
    + intros Hin%Hi3. congruence.
  - intros Hin%Hi3. congruence.
Qed.

(** X11.  On a state whose two indexes agree (I1, I3), the reverse lookup
    after [Set k v] is: [k] is filed under [v] and under no other value,
    and every other key is filed where it was. *)
Theorem GetKeys_Set k v m k' v' :
  I1 m → I3 m →
  k' ∈ GetKeys v' (Set_ k v m)
  ↔ (k' = k ∧ v' = v) ∨ (k' ≠ k ∧ k' ∈ GetKeys v' m).
Proof.
  intros Hi1 Hi3. rewrite I1_spec in Hi1. rewrite I3_spec in Hi3.
  rewrite !elem_of_GetKeys.
  destruct (decide (k' = k)) as [->|Hk].
  2:{ rewrite (bucket_Set_other k v m k' v' Hk). split.
      - intros ?. by right.
      - by intros [[? _]|[_ ?]]. }
  assert (k ∈ bucket (reverseMap (Set_ k v m)) v' ↔ v' = v) as Hkv.
  { destruct (decide (data m !! k = Some v)) as [E|E].
    - rewrite Set_same by done. split.
      + intros Hin%Hi3. congruence.
      + intros ->. by apply Hi1.
    - rewrite (reverseMap_Set_write k v m E), bucket_addToBucket.
      destruct (decide (v' = v)) as [->|Hv].
      + split; [done|]. intros _. apply elem_of_union_l. by apply elem_of_singleton.
      + split; [|done]. destruct (data m !! k) as [old|] eqn:Ek.
        * rewrite bucket_removeFromReverseMap.
          destruct (decide (v' = old)) as [->|Hv'].
          -- rewrite elem_of_difference, elem_of_singleton. by intros [_ ?].
          -- intros Hin%Hi3. congruence.
        * intros Hin%Hi3. congruence. }
  rewrite Hkv. split.
  - intros ->. by left.
  - by intros [[_ ?]|[? _]].
Qed.

(** * The reverse index is determined by the forward map *)

Lemma Inv_Inv3 m : Inv m → Inv3 m.
Proof. intros (Hi1 & Hi2 & Hi3 & _). done. Qed.

Lemma Inv3_consistent m : Inv3 m → consistent (data m) (reverseMap m).
Proof.
  intros (Hi1 & _ & Hi3) k v. rewrite I1_spec in Hi1. rewrite I3_spec in Hi3.
  split; [apply Hi1|apply Hi3].
Qed.

Lemma Inv3_ext m m' : Inv3 m → Inv3 m' → data m = data m' → m = m'.
Proof.
  intros Hm Hm' Hd.
  pose proof (Inv3_consistent m Hm) as Hc.
  pose proof (Inv3_consistent m' Hm') as Hc'.
  destruct Hm as (_ & Hi2 & _), Hm' as (_ & Hi2' & _).
  rewrite I2_spec in Hi2. rewrite I2_spec in Hi2'.
  destruct m as [d r], m' as [d' r']. simpl in *. subst d'. f_equal.
  apply map_eq. intros v.
  rewrite <- (prune_bucket r v Hi2), <- (prune_bucket r' v Hi2'). f_equal.
  apply set_eq. intros k. by rewrite <- (Hc k v), <- (Hc' k v).
Qed.

Lemma data_apply_op m (o : op K V) :
  data (apply_op m o)
  = match o with
    | OpSet k v => <[k:=v]> (data m)
    | OpRemove k => delete k (data m)
    end.
Proof. destruct o; simpl; [apply data_Set|apply data_Remove]. Qed.

Lemma Inv3_apply_op m (o : op K V) : Inv3 m → Inv3 (apply_op m o).
Proof. destruct o; simpl; [apply Inv3_Set|apply Inv3_Remove]. Qed.

(** X12.  Two structures that both satisfy the invariants and have the
    same forward map are the same structure: the reverse index holds
    nothing that the forward map does not determine. *)
Theorem reverse_index_determined m m' :
  Inv m → Inv m' → data m = data m' → m = m'.
Proof. intros Hm Hm'. apply Inv3_ext; by apply Inv_Inv3. Qed.

(** X13.  On a structure that satisfies the invariants, two calls ([Set]
    or [Remove]) on different keys give the same state in either order. *)
Theorem calls_on_distinct_keys_commute m (o1 o2 : op K V) :
  Inv m → op_key o1 ≠ op_key o2 →
  apply_op (apply_op m o1) o2 = apply_op (apply_op m o2) o1.
Proof.
  intros Hm%Inv_Inv3 Hk.
  apply Inv3_ext; [by do 2 apply Inv3_apply_op..|].
  rewrite !data_apply_op. destruct o1 as [k1 v1|k1], o2 as [k2 v2|k2]; simpl in Hk.
  - by apply insert_insert_ne.
  - by rewrite delete_insert_ne.
  - by rewrite delete_insert_ne.
  - apply delete_delete.
Qed.

(** X14.  A structure that satisfies the invariants is the one that [New]
    builds from its forward map. *)
Theorem New_of_data m : Inv m → New [data m] = m.
Proof.
  intros Hm%Inv_Inv3. apply Inv3_ext; [|done|].
  - rewrite New_single_run. apply Inv3_run, Inv3_empty.
  - rewrite data_New. simpl. by rewrite (right_id_L ∅ (∪)).
Qed.

(** * Values against the reverse index *)

Lemma length_filter_values d v :
  length (filter (λ x, x = v) (map_to_list d).*2)
  = size (filter (λ kv : K * V, kv.2 = v) d).
Proof.
  induction d as [|k x d Hk IH] using map_ind.
  - by rewrite map_to_list_empty, map_filter_empty, map_size_empty.
  - rewrite (map_to_list_insert d k x Hk). rewrite fmap_cons. simpl.
    rewrite map_filter_insert. simpl.
    destruct (decide (x = v)) as [->|Hx].
    + rewrite filter_cons_True by done. simpl. rewrite IH.
      rewrite map_size_insert_None; [done|].
      apply map_lookup_filter_None. by left.
    + rewrite filter_cons_False by done. rewrite IH. by rewrite delete_id.
Qed.

Lemma dom_filter_value d r v :
  consistent d r → dom (filter (λ kv : K * V, kv.2 = v) d) = bucket r v.
Proof.
  intros Hc. apply set_eq. intros k.
  rewrite elem_of_dom. unfold is_Some.
  setoid_rewrite map_lookup_filter_Some. simpl. split.
  - intros (v' & Hk & ->). by apply Hc.
  - intros Hk. exists v. split; [by apply Hc|done].
Qed.

(** X15.  On a state whose two indexes agree (I1, I3), [Values()] holds
    the value [v] as many times as [GetKeys v] has keys; in particular [v]
    is among the values exactly when [GetKeys v] is not empty. *)
Theorem Values_GetKeys v m :
  I1 m → I3 m →
  ∃ values, Values m = Some values
    ∧ length (filter (λ x, x = v) values) = length (GetKeys v m)
    ∧ (v ∈ values ↔ GetKeys v m ≠ []).
Proof.
  intros Hi1 Hi3. rewrite I1_spec in Hi1. rewrite I3_spec in Hi3.
  assert (consistent (data m) (reverseMap m)) as Hc
    by (intros k' v'; split; [apply Hi1|apply Hi3]).
  exists (map_to_list (data m)).*2. unfold Values. rewrite fill_total.
  split; [done|]. split.
  - rewrite length_filter_values, <- size_dom.
    rewrite (dom_filter_value _ _ v Hc). by rewrite GetKeys_elements.
  - rewrite GetKeys_nil, list_elem_of_fmap. split.
    + intros ([k v'] & -> & Hin%elem_of_map_to_list) Hb. simpl in *.
      apply Hc in Hin. rewrite Hb in Hin. by apply not_elem_of_empty in Hin.
    + intros Hb. apply set_choose_L in Hb as [k Hk].
      exists (k, v). split; [done|]. by apply elem_of_map_to_list, Hc.
Qed.

(** * Inserting pairs with distinct keys *)

Lemma data_run_sets (l : list (K * V)) m :
  NoDup l.*1 →
  data (run ((λ kv, OpSet kv.1 kv.2) <$> l) m) = list_to_map l ∪ data m.
Proof.
  unfold run. revert m. induction l as [|[k v] l IH]; intros m Hnd; simpl.
  - by rewrite (left_id_L ∅ (∪)).
  - apply NoDup_cons in Hnd as [Hk Hnd].
    rewrite IH by done. rewrite data_Set.
    rewrite <- insert_union_l. symmetry. apply insert_union_r.
    by apply not_elem_of_list_to_map_1.
Qed.

(** X16.  After [Set] calls for pairs with pairwise different keys on the
    empty map, [Len()] is the number of pairs and [Get] returns for each
    key the value given with it. *)
Theorem distinct_keys_all_stored (l : list (K * V)) :
  NoDup l.*1 →
  let m := run ((λ kv, OpSet kv.1 kv.2) <$> l) (New []) in
  Len m = Z.of_nat (length l)
  ∧ ∀ k v, (k, v) ∈ l → Get k m = (v, true).
Proof.
  intros Hnd m.
  assert (data m = list_to_map l) as E.
  { unfold m. rewrite data_run_sets by done. simpl. unfold make_map.
    by rewrite (right_id_L ∅ (∪)). }
  split.
  - unfold Len. rewrite E, <- length_map_to_list.
    by rewrite (map_to_list_to_map l Hnd).
  - intros k v Hin. unfold Get. rewrite E.
    by rewrite (elem_of_list_to_map_1 l k v Hnd Hin).
Qed.

(** * A later call on the same key absorbs an earlier Set *)

(** X17.  [Set k v] twice in a row is [Set k v] once, in every state; and
    on a structure that satisfies the invariants a [Set] of [k] absorbs an
    earlier [Set] of [k] to any value: only the last value is stored and
    filed. *)
Theorem Set_absorbs k v m :
  Set_ k v (Set_ k v m) = Set_ k v m
  ∧ (Inv m → ∀ v1, Set_ k v (Set_ k v1 m) = Set_ k v m).
Proof.
  split.
  - apply Set_same. by rewrite data_Set, lookup_insert_eq.
  - intros Hm%Inv_Inv3 v1. apply Inv3_ext.
    + by do 2 apply Inv3_Set.
    + by apply Inv3_Set.
    + by rewrite !data_Set, insert_insert_eq.
Qed.

(** X18.  On a structure that satisfies the invariants, [Remove k] after
    [Set k v] returns [true] and leaves the state that [Remove k] alone
    leaves: nothing of the [Set] stays behind in either index. *)
Theorem Remove_after_Set k v m :
  Inv m → Remove k (Set_ k v m) = (true, (Remove k m).2).
Proof.
  intros Hm%Inv_Inv3.
  assert (data (Set_ k v m) !! k = Some v) as E
    by (by rewrite data_Set, lookup_insert_eq).
  rewrite (surjective_pairing (Remove k (Set_ k v m))). f_equal.
  - by rewrite (Remove_present k v _ E).
  - apply Inv3_ext.
    + by apply Inv3_Remove, Inv3_Set.
    + by apply Inv3_Remove.
    + by rewrite !data_Remove, data_Set, delete_insert_eq.
Qed.

End proofs.

(** * The scenarios of the specification, on string keys and integers *)

Open Scope Z_scope.

(** C7 (as amended).  For every map, after [Set("a",1)] and then
    [Set("a",2)] the key ["a"] is absent from [GetKeys(1)] and present in
    [GetKeys(2)]; the bucket of [1] has lost ["a"] and is gone when that
    leaves it empty; [Len()] is one more than the number of keys other
    than ["a"] that the map held, and so [1] when the map was empty. *)
Theorem overwrite_a_1_2 (m : Map string Z) :
  let m' := Set_ "a" 2 (Set_ "a" 1 m) in
  ("a" ∉ GetKeys 1 m') ∧ "a" ∈ GetKeys 2 m'
  ∧ Len m' = 1 + Z.of_nat (size (delete "a" (data m)))
  ∧ reverseMap m' !! 1 = prune (bucket (reverseMap m) 1 ∖ {["a"]})
  ∧ Len (Set_ "a" 2 (Set_ "a" 1 (New []))) = 1.
Proof.
  intros m'.
  destruct (Set_overwrite "a" 1 2 m) as (Ha & Hb & Hc & Hd); [done|].
  repeat split; done.
Qed.

(** C7 as first stated asks for [Len() = 1] on every map; on a map that
    holds another key, here ["b"], the two calls leave two keys. *)
Lemma overwrite_a_1_2_Len_counterexample :
  let m' := Set_ "a" 2 (Set_ "a" 1 only_b) in
  Len m' = 2
  ∧ ¬ (("a" ∉ GetKeys 1 m') ∧ "a" ∈ GetKeys 2 m' ∧ Len m' = 1).
Proof.
  split; [by vm_compute|]. intros (_ & _ & Hlen). vm_compute in Hlen. done.
Qed.

(** C2 at an input that names ["a"] in two initial maps: the forward map
    keeps the last value, [2], but ["a"] stays in the bucket of [1], so I3
    and I4 fail on the structure that [New] returns. *)
Theorem New_overlapping_keys :
  Get "a" twice_a = (2, true)
  ∧ GetKeys 1 twice_a = ["a"]
  ∧ Len twice_a = 1
  ∧ bucket_total (reverseMap twice_a) = 2%nat
  ∧ ¬ I3 twice_a ∧ ¬ I4 twice_a.
Proof.
  do 4 (split; [vm_compute; reflexivity|]).
  split; intros Hc; pose proof (bool_decide_pack _ Hc) as Hb;
    vm_compute in Hb; exact Hb.
Qed.

(** C3 at the structure that [New] returns for two initial maps that name
    ["a"]: ["a"] maps forward to [2], yet [GetKeys 1] returns it, so
    [GetKeys 1] is not the set of keys mapping to [1]; and after
    [Remove "a"] no key is left in the map, yet [GetKeys 1] still returns
    ["a"] where the empty slice is due. *)
Theorem GetKeys_after_overlapping_New :
  Get "a" twice_a = (2, true)
  ∧ GetKeys 1 twice_a = ["a"]
  ∧ ¬ (∀ k, k ∈ GetKeys 1 twice_a ↔ data twice_a !! k = Some 1)
  ∧ (Remove "a" twice_a).1 = true
  ∧ data (Remove "a" twice_a).2 = ∅
  ∧ GetKeys 1 (Remove "a" twice_a).2 = ["a"].
Proof.
  split; [vm_compute; reflexivity|].
  split; [vm_compute; reflexivity|].
  split; [|repeat split; vm_compute; reflexivity].
  intros Hc.
  assert ("a" ∈ GetKeys 1 twice_a) as Hin by (vm_compute; left).
  apply Hc in Hin. vm_compute in Hin. discriminate Hin.
Qed.

(** * The theorems at work on the sample states *)

Lemma Set_Get_roundtrip_witness :
  Get "a" (Set_ "a" 1 only_b) = (1, true)
  ∧ data only_b !! "zz" = None
  ∧ Get "zz" only_b = (0, false).
Proof.
  destruct (Set_Get_roundtrip only_b) as [Hset Habsent].
  assert (data only_b !! "zz" = None) as E by (vm_compute; reflexivity).
  split; [apply Hset|]. split; [exact E|]. exact (Habsent "zz" E).
Defined.

Lemma Remove_spec_witness :
  (Remove "a" a_and_c).1 = true
  ∧ data (Remove "a" a_and_c).2 = delete "a" (data a_and_c)
  ∧ reverseMap (Remove "a" a_and_c).2 !! 1
    = prune (bucket (reverseMap a_and_c) 1 ∖ {["a"]})
  ∧ Remove "zz" a_and_c = (false, a_and_c).
Proof.
  destruct (Remove_spec a_and_c) as (Hret & Hpresent & Habsent).
  assert (data a_and_c !! "a" = Some 1) as Ea by (vm_compute; reflexivity).
  assert (data a_and_c !! "zz" = None) as Ez by (vm_compute; reflexivity).
  destruct (Hpresent "a" 1 Ea) as [Hdata Hrev].
  split; [apply Hret; rewrite Ea; eauto|].
  split; [exact Hdata|].
  split; [exact (Hrev 1)|].
  exact (Habsent "zz" Ez).
Defined.

Lemma Set_same_value_noop_witness :
  data a_and_c !! "a" = Some 1
  ∧ Len (Set_ "a" 1 a_and_c) = Len a_and_c
  ∧ GetKeys 1 (Set_ "a" 1 a_and_c) = GetKeys 1 a_and_c
  ∧ data (Set_ "a" 1 a_and_c) = data a_and_c
  ∧ reverseMap (Set_ "a" 1 a_and_c) = reverseMap a_and_c.
Proof.
  assert (data a_and_c !! "a" = Some 1) as Ea by (vm_compute; reflexivity).
  split; [exact Ea|]. exact (Set_same_value_noop "a" 1 a_and_c Ea).
Defined.

Lemma Set_frame_witness :
  "c" ≠ "a"
  ∧ Get "c" (Set_ "a" 7 a_and_c) = Get "c" a_and_c
  ∧ ∀ v', "c" ∈ GetKeys v' (Set_ "a" 7 a_and_c) ↔ "c" ∈ GetKeys v' a_and_c.
Proof.
  assert ("c" ≠ "a") as Hne by discriminate.
  split; [exact Hne|]. exact (Set_frame "a" 7 "c" a_and_c Hne).
Defined.

(** The removal scenario of the specification: of ["a"] and ["c"] under
    [1], removing ["a"] leaves ["c"]; removing the last key of a value
    removes its bucket. *)
Example removal_pruning :
  GetKeys 1 (Remove "a" a_and_c).2 = ["c"]
  ∧ reverseMap (Remove "b" only_b).2 !! 3 = None
  ∧ GetKeys 3 (Remove "b" only_b).2 = [].
Proof. repeat split; vm_compute; reflexivity. Qed.

(** The scenario with apple, banana and cherry. *)
Example scenario_apple_banana_cherry :
  Len fruits = 3
  ∧ GetKeys 5 fruits ≡ₚ ["apple"; "cherry"]
  ∧ (Remove "banana" fruits).1 = true
  ∧ Len (Remove "banana" fruits).2 = 2
  ∧ (Remove "banana" (Remove "banana" fruits).2).1 = false.
Proof.
  split; [vm_compute; reflexivity|].
  split; [|repeat split; vm_compute; reflexivity].
  replace (GetKeys 5 fruits) with ["cherry"; "apple"]
    by (vm_compute; reflexivity).
  apply Permutation_swap.
Qed.

(** * The further properties at work on the sample states *)

Lemma New_range_order_witness :
  Forall2 (λ l d, l ≡ₚ map_to_list d) [fruit_visit] [fruit_prices]
  ∧ foldl (λ m l, foldl populate m l)
          {| data := make_map 0; reverseMap := make_map 0 |} [fruit_visit]
    = New [fruit_prices].
Proof.
  assert (Forall2 (λ l d, l ≡ₚ map_to_list d) [fruit_visit] [fruit_prices])
    as Hv by (apply (bool_decide_unpack _); vm_compute; exact I).
  split; [exact Hv|]. exact (New_range_order [fruit_prices] [fruit_visit] Hv).
Defined.

Lemma Remove_Set_roundtrip_witness :
  I2 only_b ∧ I3 only_b ∧ data only_b !! "a" = None
  ∧ Remove "a" (Set_ "a" 1 only_b) = (true, only_b).
Proof.
  assert (I2 only_b) as Hi2
    by (apply (bool_decide_unpack _); vm_compute; exact I).
  assert (I3 only_b) as Hi3
    by (apply (bool_decide_unpack _); vm_compute; exact I).
  assert (data only_b !! "a" = None) as E by (vm_compute; reflexivity).
  split; [exact Hi2|]. split; [exact Hi3|]. split; [exact E|].
  exact (Remove_Set_roundtrip "a" 1 only_b Hi2 Hi3 E).
Defined.

Lemma Set_Remove_roundtrip_witness :
  I1 a_and_c ∧ data a_and_c !! "a" = Some 1
  ∧ Set_ "a" 1 (Remove "a" a_and_c).2 = a_and_c.
Proof.
  assert (I1 a_and_c) as Hi1
    by (apply (bool_decide_unpack _); vm_compute; exact I).
  assert (data a_and_c !! "a" = Some 1) as E by (vm_compute; reflexivity).
  split; [exact Hi1|]. split; [exact E|].
  exact (Set_Remove_roundtrip "a" 1 a_and_c Hi1 E).
Defined.

Lemma Remove_frame_witness :
  "c" ≠ "a"
  ∧ Get "c" (Remove "a" a_and_c).2 = Get "c" a_and_c
  ∧ ∀ v', "c" ∈ GetKeys v' (Remove "a" a_and_c).2 ↔ "c" ∈ GetKeys v' a_and_c.
Proof.
  assert ("c" ≠ "a") as Hne by discriminate.
  split; [exact Hne|]. exact (Remove_frame "a" "c" a_and_c Hne).
Defined.

Lemma Remove_gone_witness :
  I3 a_and_c
  ∧ Get "a" (Remove "a" a_and_c).2 = (0, false)
  ∧ Remove "a" (Remove "a" a_and_c).2 = (false, (Remove "a" a_and_c).2)
  ∧ ∀ v, "a" ∉ GetKeys v (Remove "a" a_and_c).2.
Proof.
  assert (I3 a_and_c) as Hi3
    by (apply (bool_decide_unpack _); vm_compute; exact I).
  destruct (Remove_gone "a" a_and_c) as (Hget & Hagain & Hkeys).
  split; [exact Hi3|]. split; [exact Hget|]. split; [exact Hagain|].
  exact (Hkeys Hi3).
Defined.

Lemma GetKeys_Set_witness :
  I1 a_and_c ∧ I3 a_and_c
  ∧ ("a" ∈ GetKeys 2 (Set_ "a" 2 a_and_c)
     ↔ ("a" = "a" ∧ 2 = 2) ∨ ("a" ≠ "a" ∧ "a" ∈ GetKeys 2 a_and_c)).
Proof.
  assert (I1 a_and_c) as Hi1
    by (apply (bool_decide_unpack _); vm_compute; exact I).
  assert (I3 a_and_c) as Hi3
    by (apply (bool_decide_unpack _); vm_compute; exact I).
  split; [exact Hi1|]. split; [exact Hi3|].
  exact (GetKeys_Set "a" 2 a_and_c "a" 2 Hi1 Hi3).
Defined.

Lemma reverse_index_determined_witness :
  Inv a_and_c ∧ Inv (New [ {[ "a" := 1; "c" := 1 ]} ] : Map string Z)
  ∧ data a_and_c = data (New [ {[ "a" := 1; "c" := 1 ]} ] : Map string Z)
  ∧ a_and_c = New [ {[ "a" := 1; "c" := 1 ]} ].
Proof.
  assert (Inv a_and_c) as Hm
    by (apply (bool_decide_unpack _); vm_compute; exact I).
  assert (Inv (New [ {[ "a" := 1; "c" := 1 ]} ] : Map string Z)) as Hm'
    by (apply (bool_decide_unpack _); vm_compute; exact I).
  assert (data a_and_c = data (New [ {[ "a" := 1; "c" := 1 ]} ] : Map string Z))
    as E by (vm_compute; reflexivity).
  split; [exact Hm|]. split; [exact Hm'|]. split; [exact E|].
  exact (reverse_index_determined a_and_c _ Hm Hm' E).
Defined.

Lemma calls_on_distinct_keys_commute_witness :
  Inv a_and_c ∧ op_key (OpSet "a" 2) ≠ op_key (OpRemove "c" : op string Z)
  ∧ apply_op (apply_op a_and_c (OpSet "a" 2)) (OpRemove "c")
    = apply_op (apply_op a_and_c (OpRemove "c")) (OpSet "a" 2).
Proof.
  assert (Inv a_and_c) as Hm
    by (apply (bool_decide_unpack _); vm_compute; exact I).
  assert (op_key (OpSet "a" 2) ≠ op_key (OpRemove "c" : op string Z)) as Hk
    by discriminate.
  split; [exact Hm|]. split; [exact Hk|].
  exact (calls_on_distinct_keys_commute a_and_c (OpSet "a" 2) (OpRemove "c") Hm Hk).
Defined.

Lemma New_of_data_witness :
  Inv a_and_c ∧ New [data a_and_c] = a_and_c.
Proof.
  assert (Inv a_and_c) as Hm
    by (apply (bool_decide_unpack _); vm_compute; exact I).
  split; [exact Hm|]. exact (New_of_data a_and_c Hm).
Defined.

Lemma Values_GetKeys_witness :
  I1 fruits ∧ I3 fruits
  ∧ ∃ values, Values fruits = Some values
      ∧ length (filter (λ x, x = 5) values) = length (GetKeys 5 fruits)
      ∧ (5 ∈ values ↔ GetKeys 5 fruits ≠ []).
Proof.
  assert (I1 fruits) as Hi1
    by (apply (bool_decide_unpack _); vm_compute; exact I).
  assert (I3 fruits) as Hi3
    by (apply (bool_decide_unpack _); vm_compute; exact I).
  split; [exact Hi1|]. split; [exact Hi3|].
  exact (Values_GetKeys 5 fruits Hi1 Hi3).
Defined.

Lemma distinct_keys_all_stored_witness :
  NoDup fruit_visit.*1
  ∧ let m := run ((λ kv, OpSet kv.1 kv.2) <$> fruit_visit) (New []) in
    Len m = Z.of_nat (length fruit_visit)
    ∧ ∀ k v, (k, v) ∈ fruit_visit → Get k m = (v, true).
Proof.
  assert (NoDup fruit_visit.*1) as Hnd
    by (apply (bool_decide_unpack _); vm_compute; exact I).
  split; [exact Hnd|]. exact (distinct_keys_all_stored fruit_visit Hnd).
Defined.

Lemma Set_absorbs_witness :
  Inv a_and_c
  ∧ Set_ "a" 2 (Set_ "a" 2 a_and_c) = Set_ "a" 2 a_and_c
  ∧ ∀ v1, Set_ "a" 2 (Set_ "a" v1 a_and_c) = Set_ "a" 2 a_and_c.
Proof.
  assert (Inv a_and_c) as Hm
    by (apply (bool_decide_unpack _); vm_compute; exact I).
  destruct (Set_absorbs "a" 2 a_and_c) as [Htwice Habsorb].
  split; [exact Hm|]. split; [exact Htwice|]. exact (Habsorb Hm).
Defined.

Lemma Remove_after_Set_witness :
  Inv a_and_c
  ∧ Remove "a" (Set_ "a" 2 a_and_c) = (true, (Remove "a" a_and_c).2).
Proof.
  assert (Inv a_and_c) as Hm
    by (apply (bool_decide_unpack _); vm_compute; exact I).
  split; [exact Hm|]. exact (Remove_after_Set "a" 2 a_and_c Hm).
Defined.
